(** * smart-basket: the category extractor [extract_categories.py]

    A shallow embedding of the script that loads [categories.json],
    drops promotional categories and prints the remaining tree to
    [product_categories.txt], together with the properties of its
    specification.

    Input model.  A catalog document is what [json.load] returns: a
    mapping that may hold a [categories] sequence of category entries.
    An entry is a Python dict read through the four keys [id], [name],
    [parent_id] and [children]; each key may be absent, and when it is
    present it holds a value of the type the data model gives it (an
    integer, a string, an integer, a sequence of entries).  [cat["k"]]
    on an absent key raises [KeyError]; [cat.get("k")] yields [None].

    Effects.  A run is a function from the two files of the working
    directory to the way the run ends, the files it leaves and the text
    it printed.  Reading may fail (no file, no JSON).  Writing may fail
    as well: [file.write] and [print] raise [UnicodeEncodeError] on a
    text that the encoder of the stream refuses, before anything of the
    text is put out.  [main_io] is the run on given encoders; [main] is
    the run on encoders that take every text.  The interpreter's
    recursion limit is not modelled.

    A string stands for a Python [str]. *)

From stdpp Require Import gmap strings list.
From Stdlib Require Import ZArith String Ascii Lia.

Set Warnings "-register-all".

Open Scope Z_scope.
Open Scope string_scope.
Open Scope list_scope.

(** ** Exceptions *)

Inductive py_error : Type :=
  | KeyError (key : string)
  | FileNotFoundError
  | JSONDecodeError
  | UnicodeEncodeError.

(** The outcome of a statement that may raise. *)
Inductive outcome (A : Type) : Type :=
  | Ok (a : A)
  | Raise (e : py_error).
Arguments Ok {A} a.
Arguments Raise {A} e.

(** Exceptions propagate: [x ← m; k] runs [k] on the value of [m], or
    re-raises what [m] raised. *)
#[export] Instance outcome_bind : MBind outcome :=
  fun A B (k : A -> outcome B) (m : outcome A) =>
    match m with
    | Ok a => k a
    | Raise e => Raise e
    end.
#[export] Instance outcome_ret : MRet outcome := fun A a => Ok a.

(** ** Exclusion sets *)

Definition EXCLUDE_CATEGORY_IDS : gset Z :=
  {[ 11372526; 11319371; 11378741; 11379406; 11256837;
     62983; 7107; 69086; 11213812 ]}.

Definition EXCLUDE_NAMES : gset string :=
  {[ "Все товары категории";
     "Все товары раздела";
     "С Петелинкой на ужин";
     "Мандариновая сказка";
     "Идеально для запекания";
     "Залить кипятком";
     "Домашняя выпечка" ]}.

(** ** Data model *)

(** An entry of the input catalog. *)
Inductive category : Type :=
  Category (id : option Z) (name : option string)
           (parent_id : option Z) (children : option (list category)).

Definition cat_id (cat : category) : option Z :=
  match cat with Category i _ _ _ => i end.
Definition cat_name (cat : category) : option string :=
  match cat with Category _ n _ _ => n end.
Definition cat_parent_id (cat : category) : option Z :=
  match cat with Category _ _ p _ => p end.
Definition cat_children (cat : category) : option (list category) :=
  match cat with Category _ _ _ c => c end.

(** The parsed document: a mapping that may hold [categories]. *)
Record document : Type := Document { categories : option (list category) }.

(** A node of the filtered tree: the dict [{"name": ...}] with an
    optional ["children"] key. *)
Inductive filtered : Type :=
  Filtered (name : string) (children : option (list filtered)).

Definition res_name (r : filtered) : string :=
  match r with Filtered n _ => n end.
Definition res_children (r : filtered) : option (list filtered) :=
  match r with Filtered _ c => c end.

(** [cat["key"]] *)
Definition getitem {A : Type} (key : string) (field : option A) : outcome A :=
  match field with
  | Some v => Ok v
  | None => Raise (KeyError key)
  end.

(** ** [extract_category] *)

Section children_loop.
Variable extract : category -> outcome filtered.

(** The [for child in cat["children"]] loop, started with the list
    [children] collected so far: a child whose name is in
    [EXCLUDE_NAMES] is skipped, the extraction of any other child is
    appended. *)
Fixpoint extract_children (cs : list category) (children : list filtered)
  : outcome (list filtered) :=
  match cs with
  | [] => Ok children
  | child :: rest =>
      child_name ← getitem "name" (cat_name child);
      if bool_decide (child_name ∈ EXCLUDE_NAMES)
      then extract_children rest children
      else
        r ← extract child;
        extract_children rest (children ++ [r])
  end.

End children_loop.

(** [if cat.get("children"):] holds when the key is present with a
    non-empty list (an absent key gives [None], and an empty list is
    falsy as well); [result["children"]] is set only when the collected
    list is non-empty. *)
Fixpoint extract_category (cat : category) : outcome filtered :=
  name ← getitem "name" (cat_name cat);
  match cat_children cat with
  | Some ((_ :: _) as cat_children) =>
      children ← extract_children extract_category cat_children [];
      match children with
      | _ :: _ => Ok (Filtered name (Some children))
      | [] => Ok (Filtered name None)
      end
  | _ => Ok (Filtered name None)
  end.

(** ** The loop of [main] over [data["categories"]] *)

(** [cat.get("parent_id") == 0] *)
Definition parent_id_is_zero (cat : category) : bool :=
  match cat_parent_id cat with
  | Some p => bool_decide (p = 0)
  | None => false
  end.

Fixpoint main_loop (cats : list category) (result : list filtered)
  : outcome (list filtered) :=
  match cats with
  | [] => Ok result
  | cat :: rest =>
      id ← getitem "id" (cat_id cat);
      if bool_decide (id ∈ EXCLUDE_CATEGORY_IDS) then main_loop rest result
      else if parent_id_is_zero cat then
        r ← extract_category cat;
        main_loop rest (result ++ [r])
      else main_loop rest result
  end.

(** ** [print_tree] *)

(** What a run has put out so far: the text written to [file] and the
    text printed on the console. *)
Record output : Type := Output { written : string; printed : string }.

(** The line feed, ["\n"] in the source. *)
Definition LF : string := String "010"%char "".

(** [file.write(text)] *)
Definition write (text : string) (out : output) : output :=
  {| written := written out +:+ text; printed := printed out |}.

(** [print(line)] *)
Definition print (line : string) (out : output) : output :=
  {| written := written out; printed := printed out +:+ line +:+ LF |}.

(** [s * n] on strings *)
Fixpoint str_repeat (s : string) (n : nat) : string :=
  match n with
  | O => ""
  | S n => s +:+ str_repeat s n
  end.

(** A [for] loop whose body transforms the output. *)
Definition for_each {A : Type} (body : A -> output -> output)
    (l : list A) (out : output) : output :=
  fold_left (fun o x => body x o) l out.

(** The body of the loop of [print_tree] at nesting [level]; [file]
    tells whether a file object was passed. *)
Fixpoint print_cat (level : nat) (file : bool) (cat : filtered) (out : output)
  : output :=
  let prefix := str_repeat "-" (level + 1) in
  let line := prefix +:+ res_name cat in
  let out := if file then write (line +:+ LF) out else out in
  let out := print line out in
  match res_children cat with
  | Some children => for_each (print_cat (level + 1) file) children out
  | None => out
  end.

Definition print_tree (cats : list filtered) (level : nat) (file : bool)
    (out : output) : output :=
  for_each (print_cat level file) cats out.

(** ** [main] *)

(** [categories.json] as [json.load] sees it. *)
Inductive json_file : Type :=
  | NotJson
  | Json (data : document).

(** The two files of the working directory; [None] is a file that does
    not exist. *)
Record filesystem : Type := Filesystem {
  categories_json : option json_file;
  product_categories_txt : option string
}.

(** [open("categories.json")] followed by [json.load(f)] *)
Definition load (fs : filesystem) : outcome document :=
  match categories_json fs with
  | None => Raise FileNotFoundError
  | Some NotJson => Raise JSONDecodeError
  | Some (Json data) => Ok data
  end.

(** Everything [main] does before it opens the output file. *)
Definition filter_phase (fs : filesystem) : outcome (list filtered) :=
  data ← load fs;
  cats ← getitem "categories" (categories data);
  main_loop cats [].

(** A run of [main]: how it ends, the files it leaves and what it
    printed.  [open(..., "w")] creates or truncates the output file, so
    the text written starts empty. *)
Definition main (fs : filesystem) : outcome unit * filesystem * string :=
  match filter_phase fs with
  | Raise e => (Raise e, fs, "")
  | Ok result =>
      let out := print_tree result 0 true {| written := ""; printed := "" |} in
      let out := print (LF +:+ "Сохранено в product_categories.txt") out in
      (Ok tt,
       {| categories_json := categories_json fs;
          product_categories_txt := Some (written out) |},
       printed out)
  end.

(** ** Runs on streams that may refuse a text *)

(** The encoders of the two output streams: the texts that the output
    file, opened as UTF-8, and the console, in the encoding of the
    terminal, can take. *)
Record encoders : Type := Encoders {
  file_encodes : string -> bool;
  console_encodes : string -> bool
}.

(** How a rendering step ends: the output so far, with the exception
    that cut the step short, if any. *)
Definition rendered : Type := output * option py_error.

(** The statements after a step run only when the step did not raise. *)
Definition and_then (r : rendered) (k : output -> rendered) : rendered :=
  match r with
  | (out, None) => k out
  | (out, Some e) => (out, Some e)
  end.

Section streams.
Variable enc : encoders.

(** [file.write(text)]: the text is encoded first, so a refused text
    raises and leaves the file as it was. *)
Definition try_write (text : string) (out : output) : rendered :=
  if file_encodes enc text then (write text out, None)
  else (out, Some UnicodeEncodeError).

(** [print(line)]: the line is encoded first, so a refused line raises
    and leaves the console as it was. *)
Definition try_print (line : string) (out : output) : rendered :=
  if console_encodes enc line then (print line out, None)
  else (out, Some UnicodeEncodeError).

End streams.

Section loop_io.
Context {A : Type}.
Variable body : A -> output -> rendered.

(** A [for] loop that an exception in its body leaves at once. *)
Fixpoint for_each_io (l : list A) (out : output) : rendered :=
  match l with
  | [] => (out, None)
  | x :: rest => and_then (body x out) (for_each_io rest)
  end.

End loop_io.

(** The body of the loop of [print_tree], statement by statement. *)
Fixpoint print_cat_io (enc : encoders) (level : nat) (file : bool)
    (cat : filtered) (out : output) : rendered :=
  let prefix := str_repeat "-" (level + 1) in
  let line := prefix +:+ res_name cat in
  and_then (if file then try_write enc (line +:+ LF) out else (out, None))
    (fun out =>
       and_then (try_print enc line out)
         (fun out =>
            match res_children cat with
            | Some children =>
                for_each_io (print_cat_io enc (level + 1) file) children out
            | None => (out, None)
            end)).

Definition print_tree_io (enc : encoders) (cats : list filtered) (level : nat)
    (file : bool) (out : output) : rendered :=
  for_each_io (print_cat_io enc level file) cats out.

(** A run of [main] on the given encoders.  The output file is opened,
    and so created or emptied, once the filter has returned; the [with]
    block closes it however the block is left, so what was written
    before an exception stays in the file. *)
Definition main_io (enc : encoders) (fs : filesystem)
  : outcome unit * filesystem * string :=
  match filter_phase fs with
  | Raise e => (Raise e, fs, "")
  | Ok result =>
      let '(out, raised) :=
        print_tree_io enc result 0 true {| written := ""; printed := "" |} in
      let fs' := {| categories_json := categories_json fs;
                    product_categories_txt := Some (written out) |} in
      match raised with
      | Some e => (Raise e, fs', printed out)
      | None =>
          match try_print enc (LF +:+ "Сохранено в product_categories.txt") out with
          | (out, None) => (Ok tt, fs', printed out)
          | (out, Some e) => (Raise e, fs', printed out)
          end
      end
  end.

(** A text of ASCII characters only. *)
Fixpoint is_ascii (text : string) : bool :=
  match text with
  | EmptyString => true
  | String c rest => (N_of_ascii c <? 128)%N && is_ascii rest
  end.

(** Encoders that take every text, and those of a run whose console
    has the ASCII encoding. *)
Definition utf8_streams : encoders :=
  {| file_encodes := fun _ => true; console_encodes := fun _ => true |}.

Definition ascii_console : encoders :=
  {| file_encodes := fun _ => true; console_encodes := is_ascii |}.

(** ** Notions of the specification *)

(** The children of an entry; none when the key is absent. *)
Definition kids (cat : category) : list category :=
  match cat_children cat with
  | Some cs => cs
  | None => []
  end.

(** The children of a filtered node; none when the key is absent. *)
Definition sub_nodes (r : filtered) : list filtered :=
  match res_children r with
  | Some rs => rs
  | None => []
  end.

(** The entry carries a name of the name-exclusion set. *)
Definition name_excluded (cat : category) : bool :=
  match cat_name cat with
  | Some n => bool_decide (n ∈ EXCLUDE_NAMES)
  | None => false
  end.

(** The entry carries an id of the id-exclusion set. *)
Definition id_excluded (cat : category) : bool :=
  match cat_id cat with
  | Some i => bool_decide (i ∈ EXCLUDE_CATEGORY_IDS)
  | None => false
  end.

(** Root selection in the words of the specification: the entries
    whose [parent_id] equals zero and whose [id] is not in the
    id-exclusion set, in their original order. *)
Definition selected_root (cat : category) : bool :=
  parent_id_is_zero cat && negb (id_excluded cat).

Definition select_roots (cats : list category) : list category :=
  List.filter selected_root cats.

(** The root categories of the glossary: the top-level entries whose
    [parent_id] is zero. *)
Definition root_categories (cats : list category) : list category :=
  List.filter parent_id_is_zero cats.

(** The children that the branch filter keeps. *)
Definition surviving (cs : list category) : list category :=
  List.filter (fun child => negb (name_excluded child)) cs.

(** The names of the nodes strictly below [r], and of all of [r]. *)
Fixpoint names_below (r : filtered) : list string :=
  match res_children r with
  | Some rs => flat_map (fun c => res_name c :: names_below c) rs
  | None => []
  end.

Definition all_names (r : filtered) : list string :=
  res_name r :: names_below r.

(** The invariant of the filtered tree: a [children] key, where
    present, holds a non-empty list, at every node. *)
Fixpoint children_nonempty (r : filtered) : bool :=
  match res_children r with
  | None => true
  | Some [] => false
  | Some rs => forallb children_nonempty rs
  end.

(** The rendering in the words of the specification: pre-order, one
    line per node, [depth + 1] dashes and then the name. *)
Fixpoint lines_of (depth : nat) (node : filtered) : list string :=
  (str_repeat "-" (depth + 1) +:+ res_name node)
  :: match res_children node with
     | Some rs => flat_map (lines_of (S depth)) rs
     | None => []
     end.

Definition render (depth : nat) (nodes : list filtered) : list string :=
  flat_map (lines_of depth) nodes.

(** The text made of the given lines, each ended by a line feed. *)
Fixpoint text_of (lines : list string) : string :=
  match lines with
  | [] => ""
  | line :: rest => line +:+ LF +:+ text_of rest
  end.

(** The output after the given lines went to the console and, when a
    file was passed, to the file as well. *)
Definition emit (lines : list string) (file : bool) (out : output) : output :=
  {| written := written out +:+ (if file then text_of lines else "");
     printed := printed out +:+ text_of lines |}.

Fixpoint node_count (r : filtered) : nat :=
  S (match res_children r with
     | Some rs => list_sum (map node_count rs)
     | None => 0
     end).

(** The shape of a tree of names, forgetting every other field. *)
Inductive tree : Type := Tree (label : string) (subtrees : list tree).

Fixpoint shape (r : filtered) : tree :=
  Tree (res_name r)
    (match res_children r with
     | Some rs => map shape rs
     | None => []
     end).

(** The root-and-descendant structure of an input entry, defined when
    every entry of the subtree has a name. *)
Fixpoint mirror (cat : category) : option tree :=
  match cat_name cat with
  | None => None
  | Some name =>
      match cat_children cat with
      | Some cs => option_map (Tree name) (mapM mirror cs)
      | None => Some (Tree name [])
      end
  end.

(** No entry of the subtree of [cat], [cat] included, carries a name
    of the name-exclusion set. *)
Fixpoint no_excluded_names (cat : category) : bool :=
  negb (name_excluded cat)
  && match cat_children cat with
     | Some cs => forallb no_excluded_names cs
     | None => true
     end.

(** [cat] lacks a name, or some entry does that the branch filter
    reaches from [cat]: a child of a reached entry is reached unless
    its name is in the name-exclusion set. *)
Fixpoint lacks_name (cat : category) : bool :=
  match cat_name cat with
  | None => true
  | Some _ =>
      match cat_children cat with
      | Some cs =>
          existsb (fun child => negb (name_excluded child) && lacks_name child) cs
      | None => false
      end
  end.

(** The entries whose name the branch filter reads when it is run on
    [cat] and nothing raises: [cat] itself and each of its children,
    and below a child the same again unless the child's name is in the
    name-exclusion set. *)
Fixpoint reached (cat : category) : list category :=
  cat :: match cat_children cat with
         | Some cs =>
             flat_map (fun child =>
                         if name_excluded child then [child] else reached child) cs
         | None => []
         end.

(** The entry has a [name] key; the entry has an [id] key. *)
Definition named (cat : category) : Prop := is_Some (cat_name cat).
Definition has_id (cat : category) : Prop := is_Some (cat_id cat).

(** The entry without its [children] key: a leaf of the input. *)
Definition leaf_of (cat : category) : category :=
  Category (cat_id cat) (cat_name cat) (cat_parent_id cat) None.

(** The entry with the [id] key removed here and in all its
    descendants. *)
Fixpoint forget_ids (cat : category) : category :=
  Category None (cat_name cat) (cat_parent_id cat)
    (match cat_children cat with
     | Some cs => Some (map forget_ids cs)
     | None => None
     end).

(** The lines that the kept part of an input entry stands for: the
    line of the entry, then, one level deeper, the lines of each child
    whose name is not in the name-exclusion set.  An entry without a
    name stands for the bare dashes; no run that ends normally reaches
    one. *)
Fixpoint kept_lines (depth : nat) (cat : category) : list string :=
  (str_repeat "-" (depth + 1)
     +:+ match cat_name cat with Some n => n | None => "" end)
  :: match cat_children cat with
     | Some cs =>
         flat_map (fun child =>
                     if name_excluded child then [] else kept_lines (S depth) child)
           cs
     | None => []
     end.

(** The entry with every child removed, at any depth, whose name is in
    the name-exclusion set. *)
Fixpoint prune (cat : category) : category :=
  Category (cat_id cat) (cat_name cat) (cat_parent_id cat)
    (match cat_children cat with
     | Some cs =>
         Some (flat_map (fun child =>
                           if name_excluded child then [] else [prune child]) cs)
     | None => None
     end).

(** The entry reduced to its names: [id] and [parent_id] removed here
    and in all its descendants. *)
Fixpoint names_only (cat : category) : category :=
  Category None (cat_name cat) None
    (match cat_children cat with
     | Some cs => Some (map names_only cs)
     | None => None
     end).

(** ** Examples of the specification *)

Definition fruits : category :=
  Category (Some 1) (Some "Fruits") (Some 0)
    (Some [ Category None (Some "Apples") None None;
            Category None (Some "Все товары категории") None None ]).

Definition promo : category :=
  Category (Some 11372526) (Some "Promo") (Some 0) None.

(** A leaf listed at top level as well, below its parent [1]. *)
Definition apples : category :=
  Category (Some 2) (Some "Apples") (Some 1) None.

(** A root named like a promotional subcategory. *)
Definition all_goods : category :=
  Category (Some 3) (Some "Все товары категории") (Some 0)
    (Some [ Category (Some 4) (Some "Pears") (Some 3) None ]).

(** A root whose only child bears an excluded name. *)
Definition leaf_only : category :=
  Category (Some 5) (Some "Leaf") (Some 0)
    (Some [ Category None (Some "С Петелинкой на ужин") None None ]).

(** A root with a child that carries an id of the id-exclusion set. *)
Definition dairy : category :=
  Category (Some 6) (Some "Dairy") (Some 0)
    (Some [ Category (Some 7107) (Some "Milk") (Some 6)
              (Some [ Category (Some 8) (Some "Kefir") (Some 7107) None ]) ]).

(** Entries without a name: one that is not a root, one below an
    excluded child, and one that the filter reaches. *)
Definition nameless_nonroot : category :=
  Category (Some 9) None (Some 1) None.

Definition nameless_hidden : category :=
  Category (Some 10) (Some "Bakery") (Some 0)
    (Some [ Category None (Some "Домашняя выпечка") None
              (Some [ Category None None None None ]) ]).

Definition nameless_reached : category :=
  Category (Some 11) (Some "Tea") (Some 0)
    (Some [ Category None (Some "Green") None
              (Some [ Category None None None None ]) ]).

(** A root with a name in Cyrillic letters. *)
Definition vegetables : category :=
  Category (Some 13) (Some "Овощи") (Some 0) None.

(** An entry without an id that is not a root. *)
Definition idless_nonroot : category :=
  Category None (Some "Plums") (Some 1) None.

Definition with_catalog (cats : list category) (txt : option string) : filesystem :=
  {| categories_json := Some (Json (Document (Some cats)));
     product_categories_txt := txt |}.

Example extract_fruits :
  extract_category fruits = Ok (Filtered "Fruits" (Some [Filtered "Apples" None])).
Proof. vm_compute. reflexivity. Qed.

Example main_leaf_only :
  main (with_catalog [leaf_only] None)
  = (Ok tt,
     with_catalog [leaf_only] (Some ("-Leaf" +:+ LF)),
     "-Leaf" +:+ LF +:+ LF +:+ "Сохранено в product_categories.txt" +:+ LF).
Proof. vm_compute. reflexivity. Qed.

Example main_fruits_promo :
  main {| categories_json := Some (Json (Document (Some [fruits; promo])));
          product_categories_txt := None |}
  = (Ok tt,
     {| categories_json := Some (Json (Document (Some [fruits; promo])));
        product_categories_txt := Some ("-Fruits" +:+ LF +:+ "--Apples" +:+ LF) |},
     "-Fruits" +:+ LF +:+ "--Apples" +:+ LF +:+ LF
       +:+ "Сохранено в product_categories.txt" +:+ LF).
Proof. vm_compute. reflexivity. Qed.

(** ** Induction over catalog entries and filtered nodes *)

Lemma category_nested_ind (P : category -> Prop) :
  (forall cat, Forall P (kids cat) -> P cat) -> forall cat, P cat.
Proof.
  intros step. fix IH 1. intros [i n p ch]. apply step.
  destruct ch as [cs|]; [|constructor].
  induction cs as [|c cs IHcs]; constructor; [apply IH | exact IHcs].
Qed.

Lemma filtered_nested_ind (P : filtered -> Prop) :
  (forall r, Forall P (sub_nodes r) -> P r) -> forall r, P r.
Proof.
  intros step. fix IH 1. intros [n ch]. apply step.
  destruct ch as [rs|]; [|constructor].
  induction rs as [|c rs IHrs]; constructor; [apply IH | exact IHrs].
Qed.

(** ** Strings *)

Lemma append_assoc (a b c : string) : (a +:+ b) +:+ c = a +:+ (b +:+ c).
Proof.
  induction a as [|ch a IH]; [reflexivity |].
  change (String ch ((a +:+ b) +:+ c) = String ch (a +:+ (b +:+ c))).
  now f_equal.
Qed.

Lemma append_empty_r (a : string) : a +:+ "" = a.
Proof.
  induction a as [|ch a IH]; [reflexivity |].
  change (String ch (a +:+ "") = String ch a).
  now f_equal.
Qed.

Lemma text_of_app (l1 l2 : list string) :
  text_of (l1 ++ l2) = text_of l1 +:+ text_of l2.
Proof.
  induction l1 as [|line l1 IH]; simpl; [reflexivity |].
  now rewrite IH, !append_assoc.
Qed.

(** ** Exceptions and the unfolding of [extract_category] *)

Lemma bind_Ok {A B : Type} (m : outcome A) (k : A -> outcome B) (b : B) :
  m ≫= k = Ok b <-> exists a, m = Ok a /\ k a = Ok b.
Proof.
  destruct m as [a|e]; simpl; split.
  - eauto.
  - now intros (a' & [= ->] & H).
  - discriminate.
  - now intros (a' & [=] & _).
Qed.

Lemma extract_category_unfold (cat : category) :
  extract_category cat =
    name ← getitem "name" (cat_name cat);
    match cat_children cat with
    | Some ((_ :: _) as cs) =>
        children ← extract_children extract_category cs [];
        match children with
        | _ :: _ => Ok (Filtered name (Some children))
        | [] => Ok (Filtered name None)
        end
    | _ => Ok (Filtered name None)
    end.
Proof. destruct cat; reflexivity. Qed.

Lemma bind_ret_nil {A : Type} (m : outcome (list A)) :
  (rs ← m; Ok ([] ++ rs)) = m.
Proof. now destruct m. Qed.

Lemma mapM_Ok {A B : Type} (f : A -> outcome B) (l : list A) (k : list B) :
  mapM f l = Ok k <-> Forall2 (fun x y => f x = Ok y) l k.
Proof.
  revert k. induction l as [|x l IH]; intros k; simpl.
  - split; [intros [= <-]; constructor | now inversion 1].
  - split.
    + intros (y & Hy & (k' & Hk' & [= <-])%bind_Ok)%bind_Ok.
      constructor; [assumption | now apply IH].
    + inversion 1 as [|? y ? k' Hy Hk']; subst.
      rewrite Hy; simpl. apply IH in Hk'. now rewrite Hk'.
Qed.

Lemma Forall2_transfer {A B : Type} (P : A -> Prop) (Q : B -> Prop)
    (R : A -> B -> Prop) (l : list A) (k : list B) :
  Forall2 R l k -> Forall P l -> (forall a b, P a -> R a b -> Q b) -> Forall Q k.
Proof.
  intros HR HP Himp. induction HR as [|a b l k Hab _ IH]; [constructor |].
  inversion HP; subst. constructor; eauto.
Qed.

Lemma surviving_In (cs : list category) (child : category) :
  In child (surviving cs) <-> In child cs /\ name_excluded child = false.
Proof.
  unfold surviving. rewrite filter_In.
  now destruct (name_excluded child); simpl; intuition.
Qed.

Lemma Forall_surviving (P : category -> Prop) (cs : list category) :
  Forall P cs -> Forall P (surviving cs).
Proof.
  rewrite !List.Forall_forall. intros H child [Hin _]%surviving_In. now apply H.
Qed.

(** ** The children loop and the main loop against their filters *)

Lemma extract_children_surviving extract (cs : list category) (acc : list filtered) :
  Forall named cs ->
  extract_children extract cs acc = rs ← mapM extract (surviving cs); Ok (acc ++ rs).
Proof.
  intros Hnamed. revert acc.
  induction Hnamed as [|child rest [n Hn] _ IH]; intros acc; simpl.
  - now rewrite app_nil_r.
  - unfold name_excluded. rewrite Hn; simpl.
    destruct (bool_decide (n ∈ EXCLUDE_NAMES)); simpl; [apply IH |].
    destruct (extract child) as [r|e]; simpl; [|reflexivity].
    rewrite IH. fold (surviving rest).
    destruct (mapM extract (surviving rest)) as [rs|e]; simpl; [|reflexivity].
    now rewrite <- app_assoc.
Qed.

Lemma extract_children_named extract (cs : list category) (acc out : list filtered) :
  extract_children extract cs acc = Ok out -> Forall named cs.
Proof.
  revert acc. induction cs as [|child rest IH]; intros acc; simpl; [constructor |].
  destruct (cat_name child) as [n|] eqn:Hn; simpl; [|discriminate].
  intros H. constructor; [now exists n |].
  destruct (bool_decide (n ∈ EXCLUDE_NAMES)); [now apply (IH acc) |].
  destruct (extract child) as [r|e]; simpl in H; [|discriminate].
  now apply (IH (acc ++ [r])).
Qed.

Lemma extract_children_Ok extract (cs : list category) (out : list filtered) :
  extract_children extract cs [] = Ok out ->
  Forall2 (fun child r => extract child = Ok r) (surviving cs) out.
Proof.
  intros H. pose proof (extract_children_named _ _ _ _ H) as Hnamed.
  rewrite (extract_children_surviving _ _ _ Hnamed), bind_ret_nil in H.
  now apply mapM_Ok.
Qed.

Lemma main_loop_select (cats : list category) (acc : list filtered) :
  Forall has_id cats ->
  main_loop cats acc = rs ← mapM extract_category (select_roots cats); Ok (acc ++ rs).
Proof.
  intros Hids. revert acc.
  induction Hids as [|cat rest [i Hi] _ IH]; intros acc; simpl.
  - now rewrite app_nil_r.
  - unfold selected_root, id_excluded. rewrite Hi; simpl.
    destruct (bool_decide (i ∈ EXCLUDE_CATEGORY_IDS)); simpl.
    + rewrite andb_false_r. apply IH.
    + rewrite andb_true_r.
      destruct (parent_id_is_zero cat); simpl; [|apply IH].
      destruct (extract_category cat) as [r|e]; simpl; [|reflexivity].
      rewrite IH. fold (select_roots rest).
      destruct (mapM extract_category (select_roots rest)) as [rs|e]; simpl;
        [|reflexivity].
      now rewrite <- app_assoc.
Qed.

Lemma main_loop_has_id (cats : list category) (acc out : list filtered) :
  main_loop cats acc = Ok out -> Forall has_id cats.
Proof.
  revert acc. induction cats as [|cat rest IH]; intros acc; simpl; [constructor |].
  destruct (cat_id cat) as [i|] eqn:Hi; simpl; [|discriminate].
  intros H. constructor; [now exists i |].
  destruct (bool_decide (i ∈ EXCLUDE_CATEGORY_IDS)); [now apply (IH acc) |].
  destruct (parent_id_is_zero cat); [|now apply (IH acc)].
  destruct (extract_category cat) as [r|e]; simpl in H; [|discriminate].
  now apply (IH (acc ++ [r])).
Qed.

Lemma main_loop_Ok (cats : list category) (result : list filtered) :
  main_loop cats [] = Ok result ->
  Forall2 (fun cat r => extract_category cat = Ok r) (select_roots cats) result.
Proof.
  intros H. pose proof (main_loop_has_id _ _ _ H) as Hids.
  rewrite (main_loop_select _ _ Hids), bind_ret_nil in H.
  now apply mapM_Ok.
Qed.

(** ** One step of the branch filter *)

Lemma extract_category_node (cat : category) (r : filtered) :
  extract_category cat = Ok r ->
  cat_name cat = Some (res_name r)
  /\ Forall2 (fun child r' => extract_category child = Ok r')
       (surviving (kids cat)) (sub_nodes r)
  /\ res_children r <> Some [].
Proof.
  rewrite extract_category_unfold. unfold kids.
  destruct (cat_name cat) as [name|]; simpl; [|discriminate].
  destruct (cat_children cat) as [[|c cs]|].
  - intros [= <-]. repeat split; [constructor | discriminate].
  - destruct (extract_children extract_category (c :: cs) []) as [children|e] eqn:Hloop;
      simpl; [|discriminate].
    apply extract_children_Ok in Hloop.
    destruct children as [|r0 rs]; intros [= <-]; repeat split;
      try assumption; discriminate.
  - intros [= <-]. repeat split; [constructor | discriminate].
Qed.

Lemma extract_category_leaf (cat : category) :
  extract_category (leaf_of cat) = name ← getitem "name" (cat_name cat); Ok (Filtered name None).
Proof. destruct cat as [i [n|] p ch]; reflexivity. Qed.

Lemma Forall2_In_r {A B : Type} (R : A -> B -> Prop) (l : list A) (k : list B) (b : B) :
  Forall2 R l k -> In b k -> exists a, In a l /\ R a b.
Proof.
  induction 1 as [|a b' l k Hab _ IH]; simpl; [contradiction |].
  intros [<- | Hin]; [now exists a; auto |].
  destruct (IH Hin) as (a' & Ha' & HR). exists a'. auto.
Qed.

Lemma names_below_unfold (r : filtered) :
  names_below r = flat_map (fun c => res_name c :: names_below c) (sub_nodes r).
Proof. now destruct r as [n [rs|]]. Qed.

Lemma names_below_clean (cat : category) :
  forall r n, extract_category cat = Ok r -> In n (names_below r) -> n ∉ EXCLUDE_NAMES.
Proof.
  induction cat as [cat IH] using category_nested_ind.
  intros r n Hr Hn.
  destruct (extract_category_node _ _ Hr) as (_ & Hkids & _).
  rewrite names_below_unfold in Hn. apply in_flat_map in Hn as (c & Hc & Hn).
  destruct (Forall2_In_r _ _ _ _ Hkids Hc) as (child & Hchild & Hext).
  apply surviving_In in Hchild as [Hin Hkeep].
  destruct Hn as [<- | Hn].
  - destruct (extract_category_node _ _ Hext) as (Hname & _).
    unfold name_excluded in Hkeep. rewrite Hname in Hkeep.
    now apply bool_decide_eq_false in Hkeep.
  - rewrite List.Forall_forall in IH. now apply (IH child Hin c n).
Qed.

Lemma extract_category_invariant (cat : category) :
  forall r, extract_category cat = Ok r -> children_nonempty r = true.
Proof.
  induction cat as [cat IH] using category_nested_ind.
  intros r Hr. destruct (extract_category_node _ _ Hr) as (_ & Hkids & Hne).
  assert (Forall (fun r' => children_nonempty r' = true) (sub_nodes r)) as Hsub.
  { apply (Forall2_transfer _ _ _ _ _ Hkids (Forall_surviving _ _ IH)).
    intros child r' Hchild Hext. now apply Hchild. }
  destruct r as [n [[|r0 rs]|]]; [now destruct Hne | | reflexivity].
  change (forallb children_nonempty (r0 :: rs) = true).
  apply forallb_forall. now apply List.Forall_forall.
Qed.

Lemma extract_children_forget_ids extract (cs : list category) :
  Forall (fun c => extract (forget_ids c) = extract c) cs ->
  forall acc,
    extract_children extract (map forget_ids cs) acc = extract_children extract cs acc.
Proof.
  induction 1 as [|c cs Hc _ IH]; intros acc; simpl; [reflexivity |].
  replace (cat_name (forget_ids c)) with (cat_name c) by now destruct c.
  destruct (cat_name c) as [n|]; simpl; [|reflexivity].
  destruct (bool_decide (n ∈ EXCLUDE_NAMES)); [apply IH |].
  rewrite Hc. destruct (extract c); simpl; [apply IH | reflexivity].
Qed.

Lemma extract_category_cons i n p (c : category) (cs : list category) :
  extract_category (Category i n p (Some (c :: cs))) =
    name ← getitem "name" n;
    children ← extract_children extract_category (c :: cs) [];
    match children with
    | _ :: _ => Ok (Filtered name (Some children))
    | [] => Ok (Filtered name None)
    end.
Proof. reflexivity. Qed.

Lemma extract_category_cons_named i n p (c : category) (cs : list category) :
  extract_category (Category i (Some n) p (Some (c :: cs))) =
    children ← extract_children extract_category (c :: cs) [];
    match children with
    | _ :: _ => Ok (Filtered n (Some children))
    | [] => Ok (Filtered n None)
    end.
Proof. reflexivity. Qed.

Lemma extract_category_forget_ids (cat : category) :
  extract_category (forget_ids cat) = extract_category cat.
Proof.
  induction cat as [cat IH] using category_nested_ind.
  destruct cat as [i n p [[|c cs]|]]; try reflexivity.
  change (forget_ids (Category i n p (Some (c :: cs))))
    with (Category None n p (Some (map forget_ids (c :: cs)))).
  change (map forget_ids (c :: cs)) with (forget_ids c :: map forget_ids cs) at 1.
  rewrite !extract_category_cons.
  change (forget_ids c :: map forget_ids cs) with (map forget_ids (c :: cs)).
  now rewrite (extract_children_forget_ids _ _ IH).
Qed.

Lemma main_loop_app (before after : list category) (acc : list filtered) :
  main_loop (before ++ after) acc = result ← main_loop before acc; main_loop after result.
Proof.
  revert acc. induction before as [|cat rest IH]; intros acc; simpl; [reflexivity |].
  destruct (cat_id cat) as [i|]; simpl; [|reflexivity].
  destruct (bool_decide (i ∈ EXCLUDE_CATEGORY_IDS)); [apply IH |].
  destruct (parent_id_is_zero cat); [|apply IH].
  destruct (extract_category cat) as [r|e]; simpl; [apply IH | reflexivity].
Qed.

Lemma filter_phase_catalog (cats : list category) (txt : option string) :
  filter_phase (with_catalog cats txt) = main_loop cats [].
Proof. reflexivity. Qed.

Lemma main_raises (fs : filesystem) (e : py_error) :
  filter_phase fs = Raise e -> main fs = (Raise e, fs, "").
Proof. unfold main. now intros ->. Qed.

(** ** Root selection *)

(** C3: the loop of [main] extracts exactly the entries whose
    [parent_id] equals 0 and whose [id] is not in the id-exclusion set,
    in document order: whenever it returns, what it returns is the list
    of their extractions, and on a sequence whose entries all carry an
    id it is the extraction of that selection, exceptions included. *)
Theorem root_selection (cats : list category) :
  (forall result,
     main_loop cats [] = Ok result ->
     mapM extract_category (select_roots cats) = Ok result)
  /\ (Forall has_id cats ->
      main_loop cats [] = mapM extract_category (select_roots cats)).
Proof.
  split.
  - intros result Hmain. now apply mapM_Ok, main_loop_Ok.
  - intros Hids. now rewrite (main_loop_select _ _ Hids), bind_ret_nil.
Qed.

Lemma root_selection_witness :
  select_roots [fruits; apples; promo; dairy] = [fruits; dairy]
  /\ main_loop [fruits; apples; promo; dairy] []
     = mapM extract_category (select_roots [fruits; apples; promo; dairy]).
Proof.
  split; [vm_compute; reflexivity |].
  apply (root_selection [fruits; apples; promo; dairy]).
  repeat constructor; eexists; reflexivity.
Defined.

(** C10: [main] reads [cat["id"]] before it looks at [parent_id], so an
    entry without an id ends the run with an exception whatever its
    [parent_id] is: the [KeyError] for ["id"], unless an entry before
    it had already raised.  The files are left as they were. *)
Theorem missing_id_is_fatal (before after : list category) (cat : category)
    (txt : option string) :
  cat_id cat = None ->
  exists e,
    main (with_catalog (before ++ cat :: after) txt)
      = (Raise e, with_catalog (before ++ cat :: after) txt, "")
    /\ (e = KeyError "id" \/ main_loop before [] = Raise e).
Proof.
  intros Hid.
  assert (main_loop (before ++ cat :: after) []
          = _ ← main_loop before []; Raise (KeyError "id")) as Hloop.
  { rewrite main_loop_app. destruct (main_loop before []); simpl; [|reflexivity].
    now rewrite Hid. }
  destruct (main_loop before []) as [result|e] eqn:Hbefore; simpl in Hloop.
  - exists (KeyError "id"). split; [|now left].
    apply main_raises. now rewrite filter_phase_catalog.
  - exists e. split; [|now right].
    apply main_raises. now rewrite filter_phase_catalog.
Qed.

Lemma missing_id_is_fatal_witness :
  cat_parent_id idless_nonroot = Some 1
  /\ main (with_catalog [fruits; idless_nonroot; dairy] None)
     = (Raise (KeyError "id"), with_catalog [fruits; idless_nonroot; dairy] None, "").
Proof.
  split; [reflexivity |].
  destruct (missing_id_is_fatal [fruits] [dairy] idless_nonroot None eq_refl)
    as (e & Hmain & [-> | Hbefore]).
  - exact Hmain.
  - vm_compute in Hbefore. discriminate Hbefore.
Defined.

(** ** Exclusion by name *)

(** C1, as stated, fails: a root is never tested by name.  The root
    [all_goods] bears a name of the name-exclusion set and is put out
    with its subtree. *)
Lemma root_name_not_excluded :
  ~ (forall cats result r n,
       main_loop cats [] = Ok result ->
       In r result -> In n (all_names r) -> n ∉ EXCLUDE_NAMES).
Proof.
  intros H.
  apply (H [all_goods]
           [Filtered "Все товары категории" (Some [Filtered "Pears" None])]
           (Filtered "Все товары категории" (Some [Filtered "Pears" None]))
           "Все товары категории").
  - vm_compute. reflexivity.
  - now left.
  - now left.
  - apply (bool_decide_unpack _). vm_compute. exact I.
Qed.

(** C1, amended: below root level no name of the name-exclusion set
    appears in the output, at any depth, and the children of an output
    node are, in order, the extractions of the input children whose
    name is not excluded: an excluded child contributes nothing,
    neither itself nor anything of its subtree.  A root is not tested
    by name: every selected root is put out under its own name. *)
Theorem excluded_names_below_roots :
  (forall cats result r n,
     main_loop cats [] = Ok result ->
     In r result -> In n (names_below r) -> n ∉ EXCLUDE_NAMES)
  /\ (forall cat r,
        extract_category cat = Ok r ->
        Forall2 (fun child r' => extract_category child = Ok r')
          (surviving (kids cat)) (sub_nodes r))
  /\ (forall cats result,
        main_loop cats [] = Ok result ->
        Forall2 (fun root r => cat_name root = Some (res_name r))
          (select_roots cats) result).
Proof.
  split; [|split].
  - intros cats result r n Hmain Hr Hn.
    destruct (Forall2_In_r _ _ _ _ (main_loop_Ok _ _ Hmain) Hr) as (cat & _ & Hext).
    exact (names_below_clean cat r n Hext Hn).
  - intros cat r Hext. now destruct (extract_category_node _ _ Hext) as (_ & H & _).
  - intros cats result Hmain.
    eapply Forall2_impl; [exact (main_loop_Ok _ _ Hmain) |].
    intros root r Hext. now destruct (extract_category_node _ _ Hext) as (H & _).
Qed.

Lemma excluded_names_below_roots_witness :
  ("Pears" ∉ EXCLUDE_NAMES)
  /\ Forall2 (fun child r' => extract_category child = Ok r')
       (surviving (kids fruits)) [Filtered "Apples" None].
Proof.
  destruct excluded_names_below_roots as (Hnames & Hkids & _). split.
  - apply (Hnames [all_goods; fruits]
             [Filtered "Все товары категории" (Some [Filtered "Pears" None]);
              Filtered "Fruits" (Some [Filtered "Apples" None])]
             (Filtered "Все товары категории" (Some [Filtered "Pears" None]))).
    + vm_compute. reflexivity.
    + now left.
    + now left.
  - apply (Hkids fruits (Filtered "Fruits" (Some [Filtered "Apples" None]))).
    vm_compute. reflexivity.
Defined.

(** ** Exclusion by id *)

(** C2: the output roots are, in order, the extractions of the selected
    roots, none of which has an id of the id-exclusion set; below the
    root the id plays no part: a child of an extracted entry is kept
    whenever its name is not excluded, whatever its id, and removing
    every id from an entry does not change its extraction. *)
Theorem id_exclusion_only_at_root :
  (forall cats result,
     main_loop cats [] = Ok result ->
     Forall2 (fun cat r => extract_category cat = Ok r) (select_roots cats) result
     /\ Forall (fun cat => id_excluded cat = false) (select_roots cats))
  /\ (forall cat r child,
        extract_category cat = Ok r ->
        In child (kids cat) -> name_excluded child = false ->
        exists r', extract_category child = Ok r' /\ In r' (sub_nodes r))
  /\ (forall cat, extract_category (forget_ids cat) = extract_category cat).
Proof.
  split; [|split].
  - intros cats result Hmain. split; [now apply main_loop_Ok |].
    apply List.Forall_forall. intros cat [_ Hsel]%filter_In.
    unfold selected_root in Hsel. apply andb_true_iff in Hsel as [_ Hid].
    now apply negb_true_iff.
  - intros cat r child Hext Hin Hkeep.
    destruct (extract_category_node _ _ Hext) as (_ & Hkids & _).
    assert (In child (surviving (kids cat))) as Hsurv by now apply surviving_In.
    clear Hin Hkeep Hext. induction Hkids as [|c r0 cs rs Hc _ IH]; [contradiction |].
    destruct Hsurv as [<- | Hsurv].
    + exists r0. split; [assumption | now left].
    + destruct (IH Hsurv) as (r' & Hr' & Hin). exists r'. split; [assumption | now right].
  - exact extract_category_forget_ids.
Qed.

Lemma id_exclusion_only_at_root_witness :
  id_excluded promo = true
  /\ select_roots [promo; dairy] = [dairy]
  /\ (exists r', extract_category
                   (Category (Some 7107) (Some "Milk") (Some 6)
                      (Some [ Category (Some 8) (Some "Kefir") (Some 7107) None ]))
                 = Ok r'
                 /\ In r' [Filtered "Milk" (Some [Filtered "Kefir" None])]).
Proof.
  destruct id_exclusion_only_at_root as (Hroots & Hkept & _).
  split; [vm_compute; reflexivity |]. split; [vm_compute; reflexivity |].
  apply (Hkept dairy
           (Filtered "Dairy" (Some [Filtered "Milk" (Some [Filtered "Kefir" None])]))).
  - vm_compute. reflexivity.
  - now left.
  - vm_compute. reflexivity.
Defined.

(** ** The invariant of the filtered tree *)

(** C5: in every tree that the branch filter returns, a [children] key
    holds a non-empty list, at every node; and an entry none of whose
    children survives yields the very node that the same entry without
    a [children] key yields, a node without a [children] key, so the
    two are rendered alike. *)
Theorem filtered_children_nonempty (cat : category) (r : filtered) :
  extract_category cat = Ok r ->
  children_nonempty r = true
  /\ (surviving (kids cat) = [] ->
      r = Filtered (res_name r) None
      /\ extract_category (leaf_of cat) = Ok r
      /\ forall depth, lines_of depth r = [str_repeat "-" (depth + 1) +:+ res_name r]).
Proof.
  intros Hext. split; [now apply (extract_category_invariant cat) |].
  intros Hnone. destruct (extract_category_node _ _ Hext) as (Hname & Hkids & Hne).
  rewrite Hnone in Hkids. inversion Hkids as [Hsub|]; subst.
  destruct r as [n [[|r0 rs]|]]; [now destruct Hne | discriminate |].
  simpl in Hname. repeat split.
  now rewrite extract_category_leaf, Hname.
Qed.

Lemma filtered_children_nonempty_witness :
  extract_category leaf_only = Ok (Filtered "Leaf" None)
  /\ children_nonempty (Filtered "Leaf" None) = true
  /\ extract_category (leaf_of leaf_only) = Ok (Filtered "Leaf" None).
Proof.
  assert (extract_category leaf_only = Ok (Filtered "Leaf" None)) as Hext
    by (vm_compute; reflexivity).
  destruct (filtered_children_nonempty leaf_only (Filtered "Leaf" None) Hext)
    as (Hinv & Hleaf).
  destruct (Hleaf ltac:(vm_compute; reflexivity)) as (_ & Hsame & _).
  repeat split; assumption.
Defined.

(** ** Rendering *)

Lemma emit_nil (file : bool) (out : output) : emit [] file out = out.
Proof.
  destruct out as [w p]. unfold emit; simpl.
  destruct file; now rewrite !append_empty_r.
Qed.

Lemma emit_app (l1 l2 : list string) (file : bool) (out : output) :
  emit l2 file (emit l1 file out) = emit (l1 ++ l2) file out.
Proof.
  unfold emit; simpl. rewrite !text_of_app, !append_assoc.
  destruct file; [reflexivity | now rewrite !append_empty_r].
Qed.

Lemma emit_line (line : string) (file : bool) (out : output) :
  print line (if file then write (line +:+ LF) out else out) = emit [line] file out.
Proof.
  unfold emit, print, write; simpl.
  destruct file; simpl; now rewrite ?append_empty_r.
Qed.

Lemma for_each_emit (body : filtered -> output -> output)
    (lines : filtered -> list string) (file : bool) (nodes : list filtered) :
  Forall (fun node => forall out, body node out = emit (lines node) file out) nodes ->
  forall out, for_each body nodes out = emit (flat_map lines nodes) file out.
Proof.
  unfold for_each.
  induction 1 as [|node nodes Hnode _ IH]; intros out; simpl.
  - now rewrite emit_nil.
  - now rewrite Hnode, IH, emit_app.
Qed.

Lemma lines_of_unfold (depth : nat) (node : filtered) :
  lines_of depth node =
    (str_repeat "-" (depth + 1) +:+ res_name node)
    :: flat_map (lines_of (S depth)) (sub_nodes node).
Proof. now destruct node as [n [rs|]]. Qed.

Lemma print_cat_unfold (level : nat) (file : bool) (cat : filtered) (out : output) :
  print_cat level file cat out =
    for_each (print_cat (level + 1) file) (sub_nodes cat)
      (print (str_repeat "-" (level + 1) +:+ res_name cat)
         (if file
          then write ((str_repeat "-" (level + 1) +:+ res_name cat) +:+ LF) out
          else out)).
Proof. now destruct cat as [n [rs|]]. Qed.

Lemma print_cat_lines (cat : filtered) :
  forall level file out,
    print_cat level file cat out = emit (lines_of level cat) file out.
Proof.
  induction cat as [cat IH] using filtered_nested_ind.
  intros level file out.
  rewrite print_cat_unfold, lines_of_unfold, emit_line.
  rewrite (for_each_emit _ (lines_of (S level)) file).
  - now rewrite emit_app.
  - rewrite Nat.add_1_r. eapply Forall_impl; [exact IH |].
    intros node Hnode out'. apply Hnode.
Qed.

Lemma print_tree_lines (cats : list filtered) (level : nat) (file : bool)
    (out : output) :
  print_tree cats level file out = emit (render level cats) file out.
Proof.
  unfold print_tree, render. apply for_each_emit.
  apply List.Forall_forall. intros cat _ out'. apply print_cat_lines.
Qed.

Lemma length_lines_of (node : filtered) :
  forall depth, List.length (lines_of depth node) = node_count node.
Proof.
  induction node as [node IH] using filtered_nested_ind.
  intros depth. rewrite lines_of_unfold.
  replace (node_count node) with (S (list_sum (map node_count (sub_nodes node))))
    by now destruct node as [n [rs|]].
  simpl. f_equal. generalize (S depth) as d.
  induction IH as [|c rs Hc _ IHrs]; intros d; simpl; [reflexivity |].
  now rewrite length_app, Hc, IHrs.
Qed.

(** C4: [print_tree], started at level 0 on the filtered roots, sends
    to the file and to the console the lines of the pre-order
    traversal, each ended by a line feed: the line of a node is
    [depth + 1] dashes immediately followed by its name, the lines of
    its children follow it at once, one level deeper, before the lines
    of its next sibling, and every node gives exactly one line. *)
Theorem print_tree_preorder (roots : list filtered) (out : output) :
  print_tree roots 0 true out
    = {| written := written out +:+ text_of (render 0 roots);
         printed := printed out +:+ text_of (render 0 roots) |}
  /\ (forall depth node,
        lines_of depth node
        = (str_repeat "-" (depth + 1) +:+ res_name node)
          :: render (S depth) (sub_nodes node))
  /\ (forall depth node rest,
        render depth (node :: rest) = lines_of depth node ++ render depth rest)
  /\ List.length (render 0 roots) = list_sum (map node_count roots).
Proof.
  split; [apply print_tree_lines |]. split; [exact lines_of_unfold |].
  split; [reflexivity |].
  unfold render. induction roots as [|r roots IH]; simpl; [reflexivity |].
  now rewrite length_app, length_lines_of, IH.
Qed.

(** ** Runs of [main] *)

Lemma main_returns (fs : filesystem) (result : list filtered) :
  filter_phase fs = Ok result ->
  main fs = (Ok tt,
             {| categories_json := categories_json fs;
                product_categories_txt := Some (text_of (render 0 result)) |},
             text_of (render 0 result)
               +:+ (LF +:+ "Сохранено в product_categories.txt") +:+ LF).
Proof.
  unfold main. intros ->. rewrite print_tree_lines. reflexivity.
Qed.

Lemma for_each_io_returned {A : Type} (body_io : A -> output -> rendered)
    (body : A -> output -> output) (l : list A) :
  Forall (fun x => forall out out', body_io x out = (out', None) -> out' = body x out) l ->
  forall out out', for_each_io body_io l out = (out', None) -> out' = for_each body l out.
Proof.
  induction 1 as [|x l Hx _ IH]; intros out out'; simpl.
  - now intros [= <-].
  - destruct (body_io x out) as [o [e|]] eqn:Hbody; simpl; [discriminate |].
    intros Hrest. rewrite <- (Hx _ _ Hbody). now apply IH.
Qed.

Lemma for_each_io_raised {A : Type} (body_io : A -> output -> rendered)
    (P : py_error -> Prop) (l : list A) :
  Forall (fun x => forall out out' e, body_io x out = (out', Some e) -> P e) l ->
  forall out out' e, for_each_io body_io l out = (out', Some e) -> P e.
Proof.
  induction 1 as [|x l Hx _ IH]; intros out out' e; simpl; [discriminate |].
  destruct (body_io x out) as [o [e'|]] eqn:Hbody; simpl.
  - intros [= <- <-]. now apply (Hx _ _ _ Hbody).
  - apply IH.
Qed.

Lemma for_each_io_encoded {A : Type} (body_io : A -> output -> rendered)
    (body : A -> output -> output) (l : list A) :
  Forall (fun x => forall out, body_io x out = (body x out, None)) l ->
  forall out, for_each_io body_io l out = (for_each body l out, None).
Proof.
  induction 1 as [|x l Hx _ IH]; intros out; simpl; [reflexivity |].
  rewrite Hx; simpl. apply IH.
Qed.

Lemma print_cat_io_unfold (enc : encoders) (level : nat) (file : bool)
    (cat : filtered) (out : output) :
  print_cat_io enc level file cat out =
    and_then
      (if file
       then try_write enc ((str_repeat "-" (level + 1) +:+ res_name cat) +:+ LF) out
       else (out, None))
      (fun out =>
         and_then (try_print enc (str_repeat "-" (level + 1) +:+ res_name cat) out)
           (for_each_io (print_cat_io enc (level + 1) file) (sub_nodes cat))).
Proof. now destruct cat as [n [rs|]]. Qed.

Lemma print_cat_io_returned (enc : encoders) (cat : filtered) :
  forall level file out out',
    print_cat_io enc level file cat out = (out', None) ->
    out' = print_cat level file cat out.
Proof.
  induction cat as [cat IH] using filtered_nested_ind.
  intros level file out out'. rewrite print_cat_io_unfold, print_cat_unfold.
  unfold try_write, try_print.
  destruct file; simpl.
  - destruct (file_encodes enc _); simpl; [|discriminate].
    destruct (console_encodes enc _); simpl; [|discriminate].
    apply for_each_io_returned. eapply Forall_impl; [exact IH |].
    intros node Hnode o o'. apply Hnode.
  - destruct (console_encodes enc _); simpl; [|discriminate].
    apply for_each_io_returned. eapply Forall_impl; [exact IH |].
    intros node Hnode o o'. apply Hnode.
Qed.

Lemma print_cat_io_raised (enc : encoders) (cat : filtered) :
  forall level file out out' e,
    print_cat_io enc level file cat out = (out', Some e) -> e = UnicodeEncodeError.
Proof.
  induction cat as [cat IH] using filtered_nested_ind.
  intros level file out out' e. rewrite print_cat_io_unfold.
  unfold try_write, try_print.
  assert (forall o, for_each_io (print_cat_io enc (level + 1) file) (sub_nodes cat) o
                    = (out', Some e) -> e = UnicodeEncodeError) as Hkids.
  { intros o. apply (for_each_io_raised _ (fun e => e = UnicodeEncodeError)).
    eapply Forall_impl; [exact IH |].
    intros node Hnode o1 o2 e'. apply Hnode. }
  destruct file; simpl.
  - destruct (file_encodes enc _); simpl; [|now intros [= _ <-]].
    destruct (console_encodes enc _); simpl; [apply Hkids | now intros [= _ <-]].
  - destruct (console_encodes enc _); simpl; [apply Hkids | now intros [= _ <-]].
Qed.

Lemma print_cat_io_encoded (enc : encoders) (cat : filtered) :
  (forall text, file_encodes enc text = true) ->
  (forall text, console_encodes enc text = true) ->
  forall level file out,
    print_cat_io enc level file cat out = (print_cat level file cat out, None).
Proof.
  intros Hfile Hconsole.
  induction cat as [cat IH] using filtered_nested_ind.
  intros level file out. rewrite print_cat_io_unfold, print_cat_unfold.
  unfold try_write, try_print. rewrite Hfile, Hconsole.
  destruct file; simpl; apply for_each_io_encoded;
    (eapply Forall_impl; [exact IH |]); intros node Hnode o; apply Hnode.
Qed.

Lemma print_tree_io_returned (enc : encoders) (cats : list filtered) (level : nat)
    (file : bool) (out out' : output) :
  print_tree_io enc cats level file out = (out', None) ->
  out' = print_tree cats level file out.
Proof.
  unfold print_tree_io, print_tree. apply for_each_io_returned.
  apply List.Forall_forall. intros cat _ o o'. apply print_cat_io_returned.
Qed.

Lemma print_tree_io_raised (enc : encoders) (cats : list filtered) (level : nat)
    (file : bool) (out out' : output) (e : py_error) :
  print_tree_io enc cats level file out = (out', Some e) -> e = UnicodeEncodeError.
Proof.
  unfold print_tree_io. apply (for_each_io_raised _ (fun e => e = UnicodeEncodeError)).
  apply List.Forall_forall. intros cat _ o o' e'. apply print_cat_io_raised.
Qed.

Lemma main_io_raises (enc : encoders) (fs : filesystem) (e : py_error) :
  filter_phase fs = Raise e -> main_io enc fs = (Raise e, fs, "").
Proof. unfold main_io. now intros ->. Qed.

(** On encoders that take every text, a run is a run of [main]. *)
Lemma main_io_encoded (enc : encoders) (fs : filesystem) :
  (forall text, file_encodes enc text = true) ->
  (forall text, console_encodes enc text = true) ->
  main_io enc fs = main fs.
Proof.
  intros Hfile Hconsole. unfold main_io, main.
  destruct (filter_phase fs) as [result|e]; [|reflexivity].
  unfold print_tree_io, print_tree.
  rewrite (for_each_io_encoded _ (print_cat 0 true)).
  - unfold try_print. now rewrite Hconsole.
  - apply List.Forall_forall. intros cat _ o. now apply print_cat_io_encoded.
Qed.

Lemma main_io_returns (enc : encoders) (fs : filesystem) :
  fst (fst (main_io enc fs)) = Ok tt ->
  exists result,
    filter_phase fs = Ok result
    /\ snd (fst (main_io enc fs))
       = {| categories_json := categories_json fs;
            product_categories_txt := Some (text_of (render 0 result)) |}.
Proof.
  unfold main_io.
  destruct (filter_phase fs) as [result|e]; [|discriminate].
  intros Hend. exists result. split; [reflexivity |].
  destruct (print_tree_io enc result 0 true {| written := ""; printed := "" |})
    as [out [e|]] eqn:Hprint; [discriminate Hend |].
  apply print_tree_io_returned in Hprint. rewrite print_tree_lines in Hprint.
  subst out. unfold try_print.
  destruct (console_encodes enc _); reflexivity.
Qed.

(** C7, as stated, fails: the output file is opened before the first
    line is rendered, and a line that a stream refuses ends the run
    with the lines before it left in the file.  On a console with the
    ASCII encoding the run on [fruits], [vegetables] and [dairy] stops
    at the name in Cyrillic letters: the output file exists and lacks
    the lines of [dairy]. *)
Lemma partial_output_file :
  ~ (forall enc fs,
       product_categories_txt (snd (fst (main_io enc fs))) = product_categories_txt fs
       \/ exists result,
            filter_phase fs = Ok result
            /\ product_categories_txt (snd (fst (main_io enc fs)))
               = Some (text_of (render 0 result))).
Proof.
  intros H.
  destruct (H ascii_console (with_catalog [fruits; vegetables; dairy] None))
    as [Hnone | (result & Hresult & Hfull)].
  - vm_compute in Hnone. discriminate Hnone.
  - vm_compute in Hresult. injection Hresult as <-.
    vm_compute in Hfull. discriminate Hfull.
Qed.

(** C7, amended: a run that fails while loading, parsing or filtering
    ends with that exception and leaves both files as they were, the
    output file neither created nor changed; and a run that ends
    normally leaves in the output file the rendering of the whole
    filtered tree. *)
Theorem output_whole_or_not_opened (enc : encoders) (fs : filesystem) :
  (forall e, filter_phase fs = Raise e -> main_io enc fs = (Raise e, fs, ""))
  /\ (fst (fst (main_io enc fs)) = Ok tt ->
      exists result,
        filter_phase fs = Ok result
        /\ snd (fst (main_io enc fs))
           = {| categories_json := categories_json fs;
                product_categories_txt := Some (text_of (render 0 result)) |}).
Proof.
  split; [intros e; apply main_io_raises | apply main_io_returns].
Qed.

Lemma output_whole_or_not_opened_witness :
  main_io ascii_console (with_catalog [fruits; nameless_reached] (Some "old"))
  = (Raise (KeyError "name"), with_catalog [fruits; nameless_reached] (Some "old"), "")
  /\ exists result,
       filter_phase (with_catalog [fruits; vegetables] (Some "old")) = Ok result
       /\ snd (fst (main_io utf8_streams (with_catalog [fruits; vegetables] (Some "old"))))
          = {| categories_json :=
                 categories_json (with_catalog [fruits; vegetables] (Some "old"));
               product_categories_txt := Some (text_of (render 0 result)) |}.
Proof.
  split.
  - apply (output_whole_or_not_opened ascii_console
             (with_catalog [fruits; nameless_reached] (Some "old"))).
    vm_compute. reflexivity.
  - apply (output_whole_or_not_opened utf8_streams
             (with_catalog [fruits; vegetables] (Some "old"))).
    vm_compute. reflexivity.
Defined.

Lemma filter_phase_input (fs fs' : filesystem) :
  categories_json fs = categories_json fs' -> filter_phase fs = filter_phase fs'.
Proof. unfold filter_phase, load. now intros ->. Qed.

(** C9: the text that a run puts out is determined by the input file
    alone.  A second run, started on the files that a first run left,
    ends the same way, prints the same text and leaves the same files,
    the output file byte for byte; and two runs on the same input end
    the same way, print the same text and, when they end normally,
    leave the same output text, whatever the output file held before. *)
Theorem main_twice_same_output :
  (forall fs, main (snd (fst (main fs))) = main fs)
  /\ (forall fs fs',
        categories_json fs = categories_json fs' ->
        fst (fst (main fs)) = fst (fst (main fs'))
        /\ snd (main fs) = snd (main fs')
        /\ (fst (fst (main fs)) = Ok tt ->
            product_categories_txt (snd (fst (main fs)))
            = product_categories_txt (snd (fst (main fs'))))).
Proof.
  split.
  - intros fs. destruct (filter_phase fs) as [result|e] eqn:Hphase.
    + rewrite (main_returns _ _ Hphase); simpl.
      rewrite (main_returns _ result); [reflexivity | exact Hphase].
    + rewrite (main_raises _ _ Hphase); simpl. now apply main_raises.
  - intros fs fs' Hinput. pose proof (filter_phase_input _ _ Hinput) as Hsame.
    destruct (filter_phase fs) as [result|e] eqn:Hphase; symmetry in Hsame.
    + rewrite (main_returns _ _ Hphase), (main_returns _ _ Hsame). now simpl.
    + rewrite (main_raises _ _ Hphase), (main_raises _ _ Hsame); simpl.
      repeat split. discriminate.
Qed.

Lemma main_twice_same_output_witness :
  product_categories_txt (snd (fst (main (with_catalog [fruits; promo] None))))
  = product_categories_txt
      (snd (fst (main (with_catalog [fruits; promo] (Some "stale text"))))).
Proof.
  destruct main_twice_same_output as (_ & Hsame).
  destruct (Hsame (with_catalog [fruits; promo] None)
                  (with_catalog [fruits; promo] (Some "stale text")) eq_refl)
    as (_ & _ & Htxt).
  apply Htxt. vm_compute. reflexivity.
Defined.

(** ** Missing names *)

Lemma extract_children_KeyError extract (cs : list category) :
  Forall (fun c => forall e, extract c = Raise e -> e = KeyError "name") cs ->
  forall acc e, extract_children extract cs acc = Raise e -> e = KeyError "name".
Proof.
  induction 1 as [|c cs Hc _ IH]; intros acc e; simpl; [discriminate |].
  destruct (cat_name c) as [n|]; simpl; [|now intros [= <-]].
  destruct (bool_decide (n ∈ EXCLUDE_NAMES)); [apply IH |].
  destruct (extract c) as [r|e'] eqn:Hext; simpl; [apply IH |].
  intros [= <-]. now apply Hc.
Qed.

Lemma extract_category_KeyError (cat : category) :
  forall e, extract_category cat = Raise e -> e = KeyError "name".
Proof.
  induction cat as [cat IH] using category_nested_ind.
  destruct cat as [i [n|] p [[|c cs]|]]; intros e; try discriminate;
    try (now intros [= <-]).
  rewrite extract_category_cons_named.
  destruct (extract_children extract_category (c :: cs) []) as [[|r rs]|e'] eqn:Hloop;
    simpl; try discriminate.
  intros [= <-]. exact (extract_children_KeyError _ _ IH _ _ Hloop).
Qed.

Lemma extract_children_raises extract (cs : list category) :
  Forall (fun c => lacks_name c = true -> exists e, extract c = Raise e) cs ->
  existsb (fun child => negb (name_excluded child) && lacks_name child) cs = true ->
  forall acc, exists e, extract_children extract cs acc = Raise e.
Proof.
  induction 1 as [|c cs Hc _ IH]; simpl; [discriminate |].
  intros Hex acc. unfold name_excluded in Hex.
  destruct (cat_name c) as [n|]; simpl; [|eauto].
  destruct (bool_decide (n ∈ EXCLUDE_NAMES)); simpl in Hex; [now apply IH |].
  destruct (extract c) as [r|e] eqn:Hext; simpl; [|eauto].
  apply IH. destruct (lacks_name c); [|exact Hex].
  destruct (Hc eq_refl) as (e & He). discriminate He.
Qed.

Lemma lacks_name_raises (cat : category) :
  lacks_name cat = true -> exists e, extract_category cat = Raise e.
Proof.
  induction cat as [cat IH] using category_nested_ind.
  destruct cat as [i [n|] p [[|c cs]|]]; try discriminate; [|simpl; eauto ..].
  intros Hlacks. rewrite extract_category_cons_named.
  change (existsb (fun child => negb (name_excluded child) && lacks_name child)
            (c :: cs) = true) in Hlacks.
  destruct (extract_children_raises extract_category (c :: cs) IH Hlacks [])
    as (e & He).
  exists e. now rewrite He.
Qed.



Lemma reached_unfold (cat : category) :
  reached cat =
    cat :: flat_map (fun child =>
                       if name_excluded child then [child] else reached child)
             (kids cat).
Proof. now destruct cat as [i n p [cs|]]. Qed.

Lemma lacks_name_unfold (cat : category) :
  lacks_name cat =
    match cat_name cat with
    | None => true
    | Some _ =>
        existsb (fun child => negb (name_excluded child) && lacks_name child)
          (kids cat)
    end.
Proof. now destruct cat as [i [n|] p [cs|]]. Qed.

Lemma lacks_name_reached (cat : category) :
  lacks_name cat = true <->
  exists entry, In entry (reached cat) /\ cat_name entry = None.
Proof.
  induction cat as [cat IH] using category_nested_ind.
  rewrite lacks_name_unfold, reached_unfold. rewrite List.Forall_forall in IH.
  destruct (cat_name cat) as [n|] eqn:Hn.
  - rewrite existsb_exists. split.
    + intros (child & Hchild & [Hkeep Hlacks]%andb_true_iff).
      apply negb_true_iff in Hkeep.
      apply (IH child Hchild) in Hlacks as (entry & Hentry & Hnone).
      exists entry. split; [|assumption].
      right. apply in_flat_map. exists child. split; [assumption |].
      now rewrite Hkeep.
    + intros (entry & [<- | Hentry] & Hnone); [congruence |].
      apply in_flat_map in Hentry as (child & Hchild & Hentry).
      exists child. split; [assumption |].
      destruct (name_excluded child) eqn:Hexcl; simpl.
      * destruct Hentry as [<- | []]. unfold name_excluded in Hexcl.
        now rewrite Hnone in Hexcl.
      * apply (IH child Hchild). eauto.
  - split; [|reflexivity]. intros _. exists cat. split; [now left | assumption].
Qed.

Lemma extract_children_returns extract (cs : list category) :
  Forall (fun c => lacks_name c = false -> exists r, extract c = Ok r) cs ->
  existsb (fun child => negb (name_excluded child) && lacks_name child) cs = false ->
  forall acc, exists out, extract_children extract cs acc = Ok out.
Proof.
  induction 1 as [|c cs Hc _ IH]; simpl; [eauto |].
  intros [Hhere Hrest]%orb_false_iff acc.
  unfold name_excluded in Hhere. rewrite lacks_name_unfold in Hhere, Hc.
  destruct (cat_name c) as [n|]; simpl in *; [|discriminate Hhere].
  destruct (bool_decide (n ∈ EXCLUDE_NAMES)); simpl in Hhere; [now apply IH |].
  destruct (Hc Hhere) as (r & ->); simpl. now apply IH.
Qed.

Lemma named_returns (cat : category) :
  lacks_name cat = false -> exists r, extract_category cat = Ok r.
Proof.
  induction cat as [cat IH] using category_nested_ind.
  destruct cat as [i [n|] p [[|c cs]|]]; try discriminate; [simpl; eauto | | simpl; eauto].
  intros Hnamed. rewrite extract_category_cons_named.
  change (existsb (fun child => negb (name_excluded child) && lacks_name child)
            (c :: cs) = false) in Hnamed.
  destruct (extract_children_returns extract_category (c :: cs) IH Hnamed [])
    as (out & ->).
  destruct out; simpl; eauto.
Qed.





(** ** Round trip *)

Lemma no_excluded_names_here (cat : category) :
  no_excluded_names cat = true -> name_excluded cat = false.
Proof.
  destruct cat as [i n p ch]. simpl.
  intros [H _]%andb_true_iff. now apply negb_true_iff.
Qed.

Lemma mirror_named (cat : category) (t : tree) :
  mirror cat = Some t -> exists n, cat_name cat = Some n.
Proof. destruct cat as [i [n|] p ch]; [eauto | discriminate]. Qed.

Lemma extract_children_mirror extract (cs : list category) :
  Forall (fun c => forall t, mirror c = Some t -> no_excluded_names c = true ->
                   exists r, extract c = Ok r /\ shape r = t) cs ->
  forall ts, mapM mirror cs = Some ts ->
  forallb no_excluded_names cs = true ->
  forall acc, exists rs,
    extract_children extract cs acc = Ok (acc ++ rs) /\ map shape rs = ts.
Proof.
  induction 1 as [|c cs Hc _ IH]; intros ts Hts Hclean acc.
  - injection Hts as <-. exists []. now rewrite app_nil_r.
  - apply mapM_Some in Hts. inversion Hts as [|? t ? ts' Ht Hts']; subst.
    apply mapM_Some in Hts'. simpl in Hclean.
    apply andb_true_iff in Hclean as [Hc_clean Hcs_clean].
    destruct (mirror_named _ _ Ht) as (n & Hn).
    pose proof (no_excluded_names_here _ Hc_clean) as Hkeep.
    unfold name_excluded in Hkeep. rewrite Hn in Hkeep.
    destruct (Hc t Ht Hc_clean) as (r & Hr & Hshape).
    destruct (IH ts' Hts' Hcs_clean (acc ++ [r])) as (rs & Hrs & Hshapes).
    exists (r :: rs). simpl. rewrite Hn; simpl. rewrite Hkeep, Hr; simpl.
    rewrite Hrs, <- app_assoc. split; [reflexivity | now rewrite Hshape, Hshapes].
Qed.

Lemma extract_category_mirror (cat : category) :
  forall t, mirror cat = Some t -> no_excluded_names cat = true ->
  exists r, extract_category cat = Ok r /\ shape r = t.
Proof.
  induction cat as [cat IH] using category_nested_ind.
  intros t Ht Hclean. destruct (mirror_named _ _ Ht) as (n & Hn).
  destruct cat as [i n0 p ch]. simpl in Hn. subst n0.
  destruct ch as [[|c cs]|].
  - clear Hclean. change (Some (Tree n []) = Some t) in Ht. injection Ht as <-.
    exists (Filtered n None). split; reflexivity.
  - change (option_map (Tree n) (mapM mirror (c :: cs)) = Some t) in Ht.
    change (negb (name_excluded (Category i (Some n) p (Some (c :: cs))))
            && forallb no_excluded_names (c :: cs) = true) in Hclean.
    apply andb_true_iff in Hclean as [_ Hclean].
    destruct (mapM mirror (c :: cs)) as [ts|] eqn:Hts; [|discriminate Ht].
    injection Ht as <-.
    destruct (extract_children_mirror extract_category (c :: cs) IH ts Hts Hclean [])
      as (rs & Hrs & Hshape).
    rewrite extract_category_cons_named, Hrs.
    apply mapM_Some, Forall2_length in Hts.
    destruct rs as [|r rs]; [subst ts; discriminate Hts |].
    exists (Filtered n (Some (r :: rs))). split; [reflexivity |].
    rewrite <- Hshape. reflexivity.
  - clear Hclean. change (Some (Tree n []) = Some t) in Ht. injection Ht as <-.
    exists (Filtered n None). split; reflexivity.
Qed.

Lemma mapM_extract_mirror (cats : list category) :
  forall trees, mapM mirror cats = Some trees ->
  Forall (fun cat => no_excluded_names cat = true) cats ->
  exists result, mapM extract_category cats = Ok result /\ map shape result = trees.
Proof.
  induction cats as [|cat cats IH]; intros trees Htrees Hclean.
  - injection Htrees as <-. now exists [].
  - apply mapM_Some in Htrees. inversion Htrees as [|? t ? ts Ht Hts]; subst.
    apply mapM_Some in Hts. inversion Hclean as [|? ? Hcat Hcats]; subst.
    destruct (extract_category_mirror cat t Ht Hcat) as (r & Hr & Hshape).
    destruct (IH ts Hts Hcats) as (rs & Hrs & Hshapes).
    exists (r :: rs). simpl. rewrite Hr; simpl. rewrite Hrs; simpl.
    split; [reflexivity | now rewrite Hshape, Hshapes].
Qed.

(** C8: on a catalog whose top-level entries carry an id, whose roots
    have no id of the id-exclusion set and in which no name of the
    name-exclusion set occurs anywhere, the filter succeeds and the
    trees of names it returns are, in order, the root-and-descendant
    structures of the input roots. *)
Theorem round_trip (cats : list category) (trees : list tree) :
  Forall has_id cats ->
  Forall (fun cat => id_excluded cat = false) (root_categories cats) ->
  Forall (fun cat => no_excluded_names cat = true) cats ->
  mapM mirror (root_categories cats) = Some trees ->
  exists result, main_loop cats [] = Ok result /\ map shape result = trees.
Proof.
  intros Hids Hroots Hclean Htrees.
  rewrite (main_loop_select _ _ Hids), bind_ret_nil.
  assert (select_roots cats = root_categories cats) as ->.
  { unfold select_roots, root_categories, selected_root in *.
    clear Hids Hclean Htrees.
    induction cats as [|cat cats IH]; simpl in *; [reflexivity |].
    destruct (parent_id_is_zero cat); simpl; [|now apply IH].
    inversion Hroots as [|? ? Hcat Hrest]; subst.
    rewrite Hcat; simpl. f_equal. now apply IH. }
  apply mapM_extract_mirror; [assumption |].
  apply List.Forall_forall. intros cat [Hin _]%filter_In.
  rewrite List.Forall_forall in Hclean. now apply Hclean.
Qed.

Lemma round_trip_witness :
  exists result,
    main_loop [dairy; apples; Category (Some 12) (Some "Nuts") (Some 0) (Some [])] []
      = Ok result
    /\ map shape result
       = [Tree "Dairy" [Tree "Milk" [Tree "Kefir" []]]; Tree "Nuts" []].
Proof.
  apply (round_trip
           [dairy; apples; Category (Some 12) (Some "Nuts") (Some 0) (Some [])]).
  - repeat constructor; eexists; reflexivity.
  - repeat constructor.
  - repeat constructor.
  - vm_compute. reflexivity.
Defined.

(** ** What the console shows *)

Lemma main_Ok_inv (fs : filesystem) :
  fst (fst (main fs)) = Ok tt -> exists result, filter_phase fs = Ok result.
Proof.
  destruct (filter_phase fs) as [result|e] eqn:Hphase; [eauto |].
  rewrite (main_raises _ _ Hphase). discriminate.
Qed.

(** X1: when a run ends normally, the console shows the very text of
    the output file, followed by an empty line and the confirmation. *)
Theorem console_echoes_file (fs : filesystem) :
  fst (fst (main fs)) = Ok tt ->
  exists text,
    product_categories_txt (snd (fst (main fs))) = Some text
    /\ snd (main fs)
       = text +:+ LF +:+ "Сохранено в product_categories.txt" +:+ LF.
Proof.
  intros (result & Hphase)%main_Ok_inv.
  rewrite (main_returns _ _ Hphase); simpl.
  exists (text_of (render 0 result)). split; [reflexivity |].
  now rewrite append_assoc.
Qed.

Lemma console_echoes_file_witness :
  exists text,
    product_categories_txt (snd (fst (main (with_catalog [fruits; dairy] None))))
    = Some text
    /\ snd (main (with_catalog [fruits; dairy] None))
       = text +:+ LF +:+ "Сохранено в product_categories.txt" +:+ LF.
Proof.
  apply (console_echoes_file (with_catalog [fruits; dairy] None)).
  vm_compute. reflexivity.
Defined.

(** X2: called without a file object, [print_tree] leaves the written
    text as it was and prints exactly what it prints when it is given
    one; given one, it adds the same text to the file and to the
    console, at any level. *)
Theorem print_tree_without_file (cats : list filtered) (level : nat) (out : output) :
  written (print_tree cats level false out) = written out
  /\ printed (print_tree cats level false out)
     = printed (print_tree cats level true out)
  /\ exists text,
       print_tree cats level true out
       = {| written := written out +:+ text; printed := printed out +:+ text |}.
Proof.
  rewrite !print_tree_lines. unfold emit; simpl.
  split; [apply append_empty_r |]. split; [reflexivity |].
  now exists (text_of (render level cats)).
Qed.

(** ** Indentation *)

Lemma str_repeat_snoc (s : string) (n : nat) :
  str_repeat s (S n) = str_repeat s n +:+ s.
Proof.
  induction n as [|n IH]; [change (s +:+ "" = s); apply append_empty_r |].
  change (str_repeat s (S (S n))) with (s +:+ str_repeat s (S n)).
  rewrite IH at 1. now rewrite <- append_assoc.
Qed.

Lemma lines_of_dashes (node : filtered) :
  forall depth,
    Forall (fun line => exists rest, line = str_repeat "-" (depth + 1) +:+ rest)
      (lines_of depth node).
Proof.
  induction node as [node IH] using filtered_nested_ind.
  intros depth. rewrite lines_of_unfold. constructor; [eauto |].
  apply List.Forall_forall. intros line (child & Hchild & Hline)%in_flat_map.
  rewrite List.Forall_forall in IH. specialize (IH child Hchild (S depth)).
  rewrite List.Forall_forall in IH. destruct (IH line Hline) as (rest & ->).
  exists ("-" +:+ rest).
  replace (S depth + 1)%nat with (S (depth + 1)) by lia.
  now rewrite str_repeat_snoc, append_assoc.
Qed.

(** X3: the lines that [print_tree] puts out at nesting [level] are
    those of the pre-order traversal started at that level, and every
    one of them, for the nodes given and for all their descendants,
    begins with [level + 1] dashes: no line of a subtree is indented
    less than the root of the subtree. *)
Theorem lines_begin_with_dashes (cats : list filtered) (level : nat) (file : bool)
    (out : output) :
  print_tree cats level file out = emit (render level cats) file out
  /\ Forall (fun line => exists rest, line = str_repeat "-" (level + 1) +:+ rest)
       (render level cats).
Proof.
  split; [apply print_tree_lines |].
  apply List.Forall_forall. intros line (cat & _ & Hline)%in_flat_map.
  pose proof (lines_of_dashes cat level) as H.
  rewrite List.Forall_forall in H. now apply H.
Qed.

(** ** How a run can fail *)

Lemma raises_lacks_name (cat : category) (e : py_error) :
  extract_category cat = Raise e -> lacks_name cat = true.
Proof.
  intros Hraise. destruct (lacks_name cat) eqn:Hlacks; [reflexivity |].
  destruct (named_returns _ Hlacks) as (r & Hr). congruence.
Qed.

Lemma returns_named (cat : category) (r : filtered) :
  extract_category cat = Ok r -> lacks_name cat = false.
Proof.
  intros Hr. destruct (lacks_name cat) eqn:Hlacks; [|reflexivity].
  destruct (lacks_name_raises _ Hlacks) as (e & He). congruence.
Qed.

Lemma lacks_name_false_reached (cat : category) :
  lacks_name cat = false <-> forall entry, In entry (reached cat) -> named entry.
Proof.
  split.
  - intros Hnamed entry Hentry. destruct (cat_name entry) as [n|] eqn:Hn.
    + unfold named. rewrite Hn. eauto.
    + assert (lacks_name cat = true) by (apply lacks_name_reached; eauto).
      congruence.
  - intros Hall. destruct (lacks_name cat) eqn:Hlacks; [|reflexivity].
    apply lacks_name_reached in Hlacks as (entry & Hentry & Hnone).
    destruct (Hall entry Hentry) as (n & Hn). congruence.
Qed.

(** X11: the branch filter fails exactly when it reaches an entry
    without a name, and then with [KeyError] for ["name"]; it returns
    exactly when every entry it reaches has one. *)
Theorem extract_category_fails_iff (cat : category) :
  ((exists entry, In entry (reached cat) /\ cat_name entry = None)
   <-> extract_category cat = Raise (KeyError "name"))
  /\ ((forall entry, In entry (reached cat) -> named entry)
      <-> exists r, extract_category cat = Ok r).
Proof.
  split; split.
  - intros Hlacks%lacks_name_reached.
    destruct (lacks_name_raises _ Hlacks) as (e & He).
    now rewrite He, (extract_category_KeyError _ _ He).
  - intros Hraise. apply lacks_name_reached. exact (raises_lacks_name _ _ Hraise).
  - intros Hnamed%lacks_name_false_reached. now apply named_returns.
  - intros (r & Hr). apply lacks_name_false_reached. exact (returns_named _ _ Hr).
Qed.

Lemma extract_category_fails_iff_witness :
  extract_category nameless_reached = Raise (KeyError "name")
  /\ exists r, extract_category nameless_hidden = Ok r.
Proof.
  split.
  - apply (extract_category_fails_iff nameless_reached).
    exists (Category None None None None). split; [|reflexivity].
    vm_compute. tauto.
  - apply (extract_category_fails_iff nameless_hidden).
    intros entry Hentry. vm_compute in Hentry.
    destruct Hentry as [<- | [<- | []]]; eexists; reflexivity.
Defined.

Lemma main_loop_raise_cause (cats : list category) :
  forall acc e,
    main_loop cats acc = Raise e ->
    (e = KeyError "id" /\ Exists (fun cat => cat_id cat = None) cats)
    \/ (e = KeyError "name"
        /\ exists root, In root cats /\ selected_root root = true
                        /\ lacks_name root = true).
Proof.
  induction cats as [|cat rest IH]; intros acc e; simpl; [discriminate |].
  assert (forall acc', main_loop rest acc' = Raise e ->
            (e = KeyError "id" /\ Exists (fun c => cat_id c = None) (cat :: rest))
            \/ (e = KeyError "name"
                /\ exists root, (cat = root \/ In root rest)
                                /\ selected_root root = true
                                /\ lacks_name root = true)) as Hrest.
  { intros acc' Hraise.
    destruct (IH _ _ Hraise) as [[-> Hex] | [-> (root & Hin & Hsel & Hlacks)]].
    - left. split; [reflexivity | now apply Exists_cons_tl].
    - right. split; [reflexivity |]. exists root. auto. }
  destruct (cat_id cat) as [i|] eqn:Hid; simpl.
  - destruct (bool_decide (i ∈ EXCLUDE_CATEGORY_IDS)) eqn:Hexcl; [apply Hrest |].
    destruct (parent_id_is_zero cat) eqn:Hzero; [|apply Hrest].
    destruct (extract_category cat) as [r|e'] eqn:Hext; simpl; [apply Hrest |].
    intros [= <-]. right. split; [exact (extract_category_KeyError _ _ Hext) |].
    exists cat. split; [now left |]. split; [|exact (raises_lacks_name _ _ Hext)].
    unfold selected_root, id_excluded. now rewrite Hzero, Hid, Hexcl.
  - intros [= <-]. left. split; [reflexivity | now apply Exists_cons_hd].
Qed.

Lemma main_io_KeyError (enc : encoders) (fs : filesystem) (key : string) :
  fst (fst (main_io enc fs)) = Raise (KeyError key) ->
  filter_phase fs = Raise (KeyError key).
Proof.
  unfold main_io. destruct (filter_phase fs) as [result|e]; [|now intros [= ->]].
  destruct (print_tree_io enc result 0 true {| written := ""; printed := "" |})
    as [out [e|]] eqn:Hprint; simpl.
  - intros [= ->]. apply print_tree_io_raised in Hprint. discriminate Hprint.
  - unfold try_print. destruct (console_encodes enc _); simpl; discriminate.
Qed.

(** X4: a [KeyError] at the end of a run tells what the input lacks,
    whatever the output streams take: the key is ["categories"] and
    the document has no [categories], or it is ["id"] and a top-level
    entry has no [id], or it is ["name"] and the branch filter reaches,
    from a selected root, an entry without [name].  Rendering raises no
    [KeyError]. *)
Theorem key_error_names_its_cause (enc : encoders) (fs : filesystem) (key : string) :
  fst (fst (main_io enc fs)) = Raise (KeyError key) ->
  exists data,
    categories_json fs = Some (Json data)
    /\ ((key = "categories" /\ categories data = None)
        \/ (exists cats,
              categories data = Some cats
              /\ ((key = "id" /\ Exists (fun cat => cat_id cat = None) cats)
                  \/ (key = "name"
                      /\ exists root entry,
                           In root cats /\ selected_root root = true
                           /\ In entry (reached root)
                           /\ cat_name entry = None)))).
Proof.
  intros Hphase%main_io_KeyError. unfold filter_phase, load in Hphase.
  destruct (categories_json fs) as [[|data]|]; simpl in Hphase;
    try discriminate Hphase.
  exists data. split; [reflexivity |].
  destruct (categories data) as [cats|]; simpl in Hphase.
  - right. exists cats. split; [reflexivity |].
    destruct (main_loop_raise_cause _ _ _ Hphase)
      as [[[= ->] Hid] | [[= ->] (root & Hin & Hsel & Hlacks)]]; [now left |].
    right. split; [reflexivity |].
    apply lacks_name_reached in Hlacks as (entry & Hentry & Hnone).
    exists root, entry. auto.
  - left. now injection Hphase as <-.
Qed.

Lemma key_error_names_its_cause_witness :
  exists root entry,
    In root [fruits; nameless_reached] /\ selected_root root = true
    /\ In entry (reached root) /\ cat_name entry = None.
Proof.
  destruct (key_error_names_its_cause ascii_console
              (with_catalog [fruits; nameless_reached] None) "name"
              ltac:(vm_compute; reflexivity))
    as (data & Hdata & [[H _] | (cats & Hcats & Hcause)]);
    [discriminate H |].
  injection Hdata as <-. injection Hcats as <-.
  destruct Hcause as [[H _] | [_ Hcause]]; [discriminate H | exact Hcause].
Defined.

(** ** When a run ends normally *)






(** ** Catalogs side by side *)






(** X8: a top-level entry that has an id and is not a selected root,
    because its id is in the id-exclusion set or its [parent_id] is not
    zero, adds nothing and checks nothing: the loop of [main] gives the
    same outcome with the entry as without it, whatever the entry's
    name and children are. *)
Theorem unselected_entry_is_skipped (before after : list category)
    (cat : category) :
  has_id cat -> selected_root cat = false ->
  main_loop (before ++ cat :: after) [] = main_loop (before ++ after) [].
Proof.
  intros [i Hid] Hsel. rewrite !main_loop_app.
  destruct (main_loop before []) as [result|e]; simpl; [|reflexivity].
  rewrite Hid; simpl. unfold selected_root, id_excluded in Hsel. rewrite Hid in Hsel.
  destruct (bool_decide (i ∈ EXCLUDE_CATEGORY_IDS)); [reflexivity |].
  destruct (parent_id_is_zero cat); [discriminate Hsel | reflexivity].
Qed.

Lemma unselected_entry_is_skipped_witness :
  main_loop ([fruits] ++ nameless_nonroot :: [dairy]) []
  = main_loop ([fruits] ++ [dairy]) [].
Proof.
  apply (unselected_entry_is_skipped [fruits] [dairy] nameless_nonroot).
  - eexists; reflexivity.
  - vm_compute. reflexivity.
Defined.

(** ** What the branch filter reads *)

Lemma extract_category_children i n p (cs : list category) :
  extract_category (Category i n p (Some cs)) =
    name ← getitem "name" n;
    children ← extract_children extract_category cs [];
    match children with
    | _ :: _ => Ok (Filtered name (Some children))
    | [] => Ok (Filtered name None)
    end.
Proof. destruct cs; [now destruct n | reflexivity]. Qed.

Lemma extract_children_prune extract (cs : list category) :
  Forall (fun c => extract (prune c) = extract c) cs ->
  forall acc,
    extract_children extract
      (flat_map (fun child => if name_excluded child then [] else [prune child]) cs)
      acc
    = extract_children extract cs acc.
Proof.
  induction 1 as [|c cs Hc _ IH]; intros acc; [reflexivity |].
  change (flat_map (fun child => if name_excluded child then [] else [prune child])
            (c :: cs))
    with ((if name_excluded c then [] else [prune c])
          ++ flat_map (fun child => if name_excluded child then [] else [prune child])
               cs).
  unfold name_excluded at 1. simpl (extract_children extract (c :: cs) acc).
  destruct (cat_name c) as [n|] eqn:Hn; simpl.
  - destruct (bool_decide (n ∈ EXCLUDE_NAMES)) eqn:Hexcl; simpl; [apply IH |].
    replace (cat_name (prune c)) with (Some n) by now destruct c.
    simpl. rewrite Hexcl, Hc.
    destruct (extract c) as [r|e]; simpl; [apply IH | reflexivity].
  - replace (cat_name (prune c)) with (@None string) by now destruct c.
    reflexivity.
Qed.

Lemma extract_category_prune (cat : category) :
  extract_category (prune cat) = extract_category cat.
Proof.
  induction cat as [cat IH] using category_nested_ind.
  destruct cat as [i n p [cs|]]; [|reflexivity].
  change (prune (Category i n p (Some cs)))
    with (Category i n p
            (Some (flat_map (fun child =>
                               if name_excluded child then [] else [prune child]) cs))).
  rewrite !extract_category_children.
  now rewrite (extract_children_prune extract_category cs IH).
Qed.

(** X9: the branch filter reads of an excluded child its name and
    nothing else.  Removing beforehand, at every depth, the children
    whose name is in the name-exclusion set, with all that is below
    them, changes neither the tree that the filter returns nor the
    exception it raises. *)
Theorem pruning_first_changes_nothing (cat : category) :
  extract_category (prune cat) = extract_category cat
  /\ forall entry, In entry (reached (prune cat)) -> entry = prune cat
                   \/ name_excluded entry = false.
Proof.
  split; [apply extract_category_prune |].
  induction cat as [cat IH] using category_nested_ind.
  intros entry. rewrite reached_unfold. intros [<- | Hentry]; [now left |].
  right. apply in_flat_map in Hentry as (child & Hchild & Hentry).
  destruct cat as [i n p [cs|]]; [|contradiction].
  unfold kids in Hchild, IH; simpl in Hchild, IH.
  apply in_flat_map in Hchild as (c & Hc & Hchild).
  destruct (name_excluded c) eqn:Hkeep; [contradiction |].
  destruct Hchild as [<- | []].
  assert (name_excluded (prune c) = false) as Hpruned
    by (now destruct c).
  rewrite Hpruned in Hentry. rewrite List.Forall_forall in IH.
  destruct (IH c Hc entry Hentry) as [-> | H]; assumption.
Qed.

Lemma extract_children_names_only extract (cs : list category) :
  Forall (fun c => extract (names_only c) = extract c) cs ->
  forall acc,
    extract_children extract (map names_only cs) acc
    = extract_children extract cs acc.
Proof.
  induction 1 as [|c cs Hc _ IH]; intros acc; simpl; [reflexivity |].
  replace (cat_name (names_only c)) with (cat_name c) by now destruct c.
  destruct (cat_name c) as [n|]; simpl; [|reflexivity].
  destruct (bool_decide (n ∈ EXCLUDE_NAMES)); [apply IH |].
  rewrite Hc. destruct (extract c); simpl; [apply IH | reflexivity].
Qed.

(** X12: the branch filter reads names and children only.  The
    [parent_id] of an entry matters in the loop of [main] alone, which
    looks at top-level entries: with [id] and [parent_id] removed from
    an entry and from all its descendants, the filter returns the same
    tree or raises the same exception. *)
Theorem extract_category_reads_names_only (cat : category) :
  extract_category (names_only cat) = extract_category cat.
Proof.
  induction cat as [cat IH] using category_nested_ind.
  destruct cat as [i n p [cs|]]; [|reflexivity].
  change (names_only (Category i n p (Some cs)))
    with (Category None n None (Some (map names_only cs))).
  rewrite !extract_category_children.
  now rewrite (extract_children_names_only extract_category cs IH).
Qed.

(** ** The output file as a function of the input *)

Lemma kept_lines_unfold (depth : nat) (cat : category) :
  kept_lines depth cat =
    (str_repeat "-" (depth + 1)
       +:+ match cat_name cat with Some n => n | None => "" end)
    :: flat_map (kept_lines (S depth)) (surviving (kids cat)).
Proof.
  destruct cat as [i n p [cs|]]; [|reflexivity].
  change (kept_lines depth (Category i n p (Some cs)))
    with ((str_repeat "-" (depth + 1)
             +:+ match n with Some n => n | None => "" end)
          :: flat_map (fun child =>
                         if name_excluded child then []
                         else kept_lines (S depth) child) cs).
  f_equal. unfold kids, surviving; simpl.
  induction cs as [|c cs IH]; simpl; [reflexivity |].
  destruct (name_excluded c); simpl; now rewrite IH.
Qed.

Lemma lines_of_kept (cat : category) :
  forall r depth, extract_category cat = Ok r -> lines_of depth r = kept_lines depth cat.
Proof.
  induction cat as [cat IH] using category_nested_ind.
  intros r depth Hr. destruct (extract_category_node _ _ Hr) as (Hname & Hkids & _).
  rewrite lines_of_unfold, kept_lines_unfold, Hname. f_equal.
  apply Forall_surviving in IH. revert IH.
  induction Hkids as [|c r' cs rs Hc _ IHkids]; intros IH; [reflexivity |].
  inversion IH as [|? ? IHc IHcs]; subst. simpl.
  now rewrite (IHc r' (S depth) Hc), IHkids.
Qed.

(** X10: when a run ends normally, the output file holds, for each
    selected root in document order, the line of the root and below it,
    one dash deeper per level, the lines of its descendants, without
    the subtrees of the children whose name is in the name-exclusion
    set: every line is the name of an input entry at its own depth, in
    document order. *)
Theorem output_file_contents (cats : list category) (txt : option string) :
  fst (fst (main (with_catalog cats txt))) = Ok tt ->
  snd (fst (main (with_catalog cats txt)))
  = with_catalog cats (Some (text_of (flat_map (kept_lines 0) (select_roots cats)))).
Proof.
  intros (result & Hphase)%main_Ok_inv.
  rewrite (main_returns _ _ Hphase); simpl. unfold with_catalog. do 3 f_equal.
  rewrite filter_phase_catalog in Hphase. apply main_loop_Ok in Hphase.
  unfold render.
  induction Hphase as [|root r roots rs Hr _ IH]; simpl; [reflexivity |].
  now rewrite (lines_of_kept _ _ _ Hr), IH.
Qed.

Lemma output_file_contents_witness :
  snd (fst (main (with_catalog [fruits; apples; promo; dairy] None)))
  = with_catalog [fruits; apples; promo; dairy]
      (Some (text_of ["-Fruits"; "--Apples"; "-Dairy"; "--Milk"; "---Kefir"])).
Proof.
  apply (output_file_contents [fruits; apples; promo; dairy] None).
  vm_compute. reflexivity.
Defined.
